(** * whisper_bridge: a shallow embedding of [src/whisper_bridge.py]

    The script parses its command line with [argparse], imports three
    libraries, checks that the input file exists, loads a model, transcribes,
    reshapes the result and writes JSON; a catch-all handler writes an error
    document.  The embedding follows [main] statement by statement in a
    state-and-exception monad over a file system and an event trace.

    Conventions of the model.
    - A Python [str] is a Rocq [string], one character per code point.
    - [argparse] is modelled after CPython 3.11's [_parse_known_args] for a
      parser that has optional arguments only.  One corner is left out: an
      explicit argument that is literally the two-dash separator (as in
      [--input=--]) is stored as given, where CPython 3.11 stores an empty
      list.
    - Exceptions raised by the environment are instances of [Exception];
      interpreter signals such as [KeyboardInterrupt] are outside the model.
    - Python floats that pass through the program are finite and are kept
      as a mantissa and a binary exponent; nothing computes with them.
    - [open(path, "w")] succeeds or raises as the environment decides; once
      a file is open, writing to it succeeds.  A file is identified by its
      path string.
    - [json.dump] is a library function: the text it writes for an encodable
      value is represented by the JSON value it denotes.
    - [time.time()] only feeds log messages; the messages are kept without
      the elapsed seconds. *)

From Stdlib Require Import ZArith String Ascii List Bool Lia.
From stdpp Require Import base strings gmap list.

Set Warnings "-register-all".

Local Open Scope string_scope.
Local Open Scope Z_scope.

(** ** String helpers used by the argument parser *)

Module Str.

(** [c in s] *)
Fixpoint contains (c : ascii) (s : string) : bool :=
  match s with
  | EmptyString => false
  | String d r => Ascii.eqb c d || contains c r
  end.

(** [s.split(c, 1)] when [c] occurs in [s]. *)
Fixpoint split1 (c : ascii) (s : string) : option (string * string) :=
  match s with
  | EmptyString => None
  | String d r =>
      if Ascii.eqb c d then Some (EmptyString, r)
      else match split1 c r with
           | Some (a, b) => Some (String d a, b)
           | None => None
           end
  end.

(** [s.startswith(p)] *)
Definition startswith (p s : string) : bool := String.prefix p s.

Definition is_digit (c : ascii) : bool :=
  let n := nat_of_ascii c in (Nat.leb 48 n && Nat.leb n 57)%bool.

Fixpoint all_digits (s : string) : bool :=
  match s with
  | EmptyString => true
  | String c r => is_digit c && all_digits r
  end.

(** [\d+] anchored at both ends *)
Definition digits1 (s : string) : bool :=
  match s with
  | EmptyString => false
  | _ => all_digits s
  end.

(** [\d*\.\d+] anchored at both ends *)
Fixpoint frac (s : string) : bool :=
  match s with
  | EmptyString => false
  | String c r =>
      if Ascii.eqb c "." then digits1 r
      else is_digit c && frac r
  end.

(** Drop one final newline: the regular expression's [$] also matches
    just before a newline that ends the string. *)
Fixpoint chomp (s : string) : string :=
  match s with
  | EmptyString => EmptyString
  | String c EmptyString => if Ascii.eqb c "010" then EmptyString else s
  | String c r => String c (chomp r)
  end.

End Str.

(** ** The argument parser (lines 17-21) *)

Module Argparse.

Inductive dest := Input | Output | Model.

Inductive action_kind :=
| Store (d : dest)   (* the default action, [nargs=None] *)
| ShowHelp.          (* the [-h/--help] action every parser gets *)

Record action := mkAction {
  option_strings : list string;
  kind : action_kind;
  required : bool;
  default : option string;
  help : string
}.

(** [ArgumentParser(description=...)] registers the help action. *)
Definition help_action : action :=
  mkAction ["-h"; "--help"] ShowHelp false None
           "show this help message and exit".

(** [parser.add_argument("--input", "-i", required=True, ...)] *)
Definition input_action : action :=
  mkAction ["--input"; "-i"] (Store Input) true None "Input audio file".

(** [parser.add_argument("--output", "-o", required=True, ...)] *)
Definition output_action : action :=
  mkAction ["--output"; "-o"] (Store Output) true None "Output JSON file".

(** [parser.add_argument("--model", "-m", default="tiny", ...)] *)
Definition model_action : action :=
  mkAction ["--model"; "-m"] (Store Model) false (Some "tiny")
           "Whisper model to use".

(** The arguments the script declares, in the order of the source. *)
Definition declared_actions : list action :=
  [input_action; output_action; model_action].

Definition parser_actions : list action := help_action :: declared_actions.

(** [parser._option_string_actions], in registration order. *)
Definition option_string_actions : list (string * action) :=
  flat_map (fun a => map (fun s => (s, a)) (option_strings a)) parser_actions.

Fixpoint assoc {A} (k : string) (l : list (string * A)) : option A :=
  match l with
  | [] => None
  | (k', v) :: r => if String.eqb k k' then Some v else assoc k r
  end.

(** The namespace: [None] until an option stores a string. *)
Record namespace := mkNamespace {
  input : option string;
  output : option string;
  model : option string
}.

Definition setattr (d : dest) (v : string) (ns : namespace) : namespace :=
  match d with
  | Input => mkNamespace (Some v) (output ns) (model ns)
  | Output => mkNamespace (input ns) (Some v) (model ns)
  | Model => mkNamespace (input ns) (output ns) (Some v)
  end.

(** How the parser leaves: a namespace, or [SystemExit] with a status
    (0 after printing the help, 2 after [parser.error]). *)
Inductive parsed (A : Type) :=
| Parsed (a : A)
| Exit (status : Z).
Arguments Parsed {A} a.
Arguments Exit {A} status.

(** What [_parse_optional] says about one argument string. *)
Inductive optional :=
| Positional
| Optional (a : option action) (option_string : string)
           (explicit_arg : option string).

(** The regular expression [^-\d+$|^-\d*\.\d+$]. *)
Definition negative_number (s : string) : bool :=
  match s with
  | String "-" r =>
      Str.digits1 r || Str.digits1 (Str.chomp r)
      || Str.frac r || Str.frac (Str.chomp r)
  | _ => false
  end.

(** [_get_option_tuples] *)
Definition get_option_tuples (s : string)
  : list (action * string * option string) :=
  match s with
  | String "-" (String "-" _) =>
      let '(option_prefix, explicit_arg) :=
        match Str.split1 "=" s with
        | Some (p, e) => (p, Some e)
        | None => (s, None)
        end in
      flat_map (fun '(os, a) =>
                  if Str.startswith option_prefix os
                  then [(a, os, explicit_arg)] else [])
               option_string_actions
  | String "-" (String c r) =>
      let short_option_prefix := String "-" (String c EmptyString) in
      flat_map (fun '(os, a) =>
                  if String.eqb os short_option_prefix
                  then [(a, os, Some r)]
                  else if Str.startswith s os
                       then [(a, os, None)] else [])
               option_string_actions
  | _ => []
  end.

(** [_parse_optional]; [Exit 2] is the ambiguous-option error. *)
Definition parse_optional (s : string) : parsed optional :=
  match s with
  | EmptyString => Parsed Positional
  | String c r =>
      if negb (Ascii.eqb c "-") then Parsed Positional
      else match assoc s option_string_actions with
           | Some a => Parsed (Optional (Some a) s None)
           | None =>
               match r with
               | EmptyString => Parsed Positional
               | _ =>
                   let by_equals :=
                     match Str.split1 "=" s with
                     | Some (os, e) =>
                         match assoc os option_string_actions with
                         | Some a => Some (Optional (Some a) os (Some e))
                         | None => None
                         end
                     | None => None
                     end in
                   match by_equals with
                   | Some o => Parsed o
                   | None =>
                       match get_option_tuples s with
                       | [(a, os, e)] => Parsed (Optional (Some a) os e)
                       | _ :: _ :: _ => Exit 2
                       | [] =>
                           if negative_number s then Parsed Positional
                           else if Str.contains " " s then Parsed Positional
                           else Parsed (Optional None s None)
                       end
                   end
               end
           end
  end.

(** One position of the argument pattern: ['A'], ['O'] or ['-']. *)
Inductive token :=
| TokA (s : string)
| TokO (a : option action) (option_string : string)
       (explicit_arg : option string) (arg_string : string)
| TokDash.

(** The first loop of [_parse_known_args]: every string after the first
    two-dash separator is an argument. *)
Fixpoint classify (arg_strings : list string) : parsed (list token) :=
  match arg_strings with
  | [] => Parsed []
  | s :: rest =>
      if String.eqb s "--" then Parsed (TokDash :: map TokA rest)
      else match parse_optional s with
           | Exit c => Exit c
           | Parsed o =>
               match classify rest with
               | Exit c => Exit c
               | Parsed toks =>
                   Parsed (match o with
                           | Positional => TokA s
                           | Optional a os e => TokO a os e s
                           end :: toks)
               end
           end
  end.

(** State of the second loop: the namespace, [seen_actions] restricted
    to the store actions, and [extras]. *)
Record pstate := mkPstate {
  ns : namespace;
  seen : list dest;
  extras : list string
}.

Definition take_store (d : dest) (v : string) (st : pstate) : pstate :=
  mkPstate (setattr d v (ns st)) (d :: seen st) (extras st).

Definition add_extra (s : string) (st : pstate) : pstate :=
  mkPstate (ns st) (seen st) (extras st ++ [s]).

(** [_match_argument] for an optional with [nargs=None]: the pattern is
    [(A)], so the next string must be an argument. *)
Definition next_argument (rest : list token) : option (string * list token) :=
  match rest with
  | TokA v :: rest' => Some (v, rest')
  | _ => None
  end.

(** The loop of [consume_optional] once [-h] has been seen with more
    characters glued to it ([-hX...]): every later flag of the string
    must check out before the help action prints and exits. *)
Fixpoint help_chain (explicit_arg : string) (rest : list token) : Z :=
  match explicit_arg with
  | EmptyString => 2
  | String c tail =>
      match assoc (String "-" (String c EmptyString)) option_string_actions with
      | None => 2
      | Some a =>
          match kind a, tail with
          | ShowHelp, EmptyString => 0
          | ShowHelp, _ => help_chain tail rest
          | Store _, EmptyString =>
              match next_argument rest with Some _ => 0 | None => 2 end
          | Store _, _ => 0
          end
      end
  end.

Definition second_is_dash (s : string) : bool :=
  match s with
  | String _ (String "-" _) => true
  | _ => false
  end.

(** The consume loop: strings no option takes go to [extras]; an option
    takes its explicit argument or the next argument string. *)
Fixpoint consume (toks : list token) (st : pstate) : parsed pstate :=
  match toks with
  | [] => Parsed st
  | TokA s :: rest => consume rest (add_extra s st)
  | TokDash :: rest => consume rest (add_extra "--" st)
  | TokO None _ _ s :: rest => consume rest (add_extra s st)
  | TokO (Some a) os e s :: rest =>
      match kind a with
      | Store d =>
          match e with
          | Some v => consume rest (take_store d v st)
          | None =>
              match rest with
              | TokA v :: rest' => consume rest' (take_store d v st)
              | _ => Exit 2
              end
          end
      | ShowHelp =>
          match e with
          | None => Exit 0
          | Some x =>
              if negb (second_is_dash os) && negb (String.eqb x "")
              then Exit (help_chain x rest)
              else Exit 2
          end
      end
  end.

Definition dest_eqb (a b : dest) : bool :=
  match a, b with
  | Input, Input | Output, Output | Model, Model => true
  | _, _ => false
  end.

Definition seen_dest (d : dest) (st : pstate) : bool :=
  existsb (dest_eqb d) (seen st).

(** Is a declared action missing although it is required? *)
Definition missing_required (st : pstate) : bool :=
  existsb (fun a => match kind a with
                    | Store d => required a && negb (seen_dest d st)
                    | ShowHelp => false
                    end) parser_actions.

(** The defaults put in the namespace before parsing. *)
Definition initial_namespace : namespace :=
  mkNamespace (default input_action) (default output_action)
              (default model_action).

(** [parser.parse_args()] on [sys.argv[1:]]. *)
Definition parse_args (argv : list string) : parsed namespace :=
  match classify argv with
  | Exit c => Exit c
  | Parsed toks =>
      match consume toks (mkPstate initial_namespace [] []) with
      | Exit c => Exit c
      | Parsed st =>
          if missing_required st then Exit 2
          else match extras st with
               | [] => Parsed (ns st)
               | _ :: _ => Exit 2
               end
      end
  end.

End Argparse.

(** ** Python values, exceptions and JSON *)

Inductive pyval :=
| PNone
| PBool (b : bool)
| PInt (z : Z)
| PFloat (mantissa exponent : Z)
| PStr (s : string)
| PList (items : list pyval)
| PDict (entries : list (string * pyval))
| PObj (type_name : string).   (* any other object: a tensor, an array *)

(** An exception: its class name and [str(e)]. *)
Record exn := mkExn { exn_type : string; exn_str : string }.

Inductive result (A : Type) :=
| Ok (a : A)
| Raise (e : exn).
Arguments Ok {A} a.
Arguments Raise {A} e.

Definition TypeError (msg : string) : exn := mkExn "TypeError" msg.
Definition KeyError (key : string) : exn :=
  mkExn "KeyError" ("'" +:+ key +:+ "'").

Definition type_name_of (v : pyval) : string :=
  match v with
  | PNone => "NoneType"
  | PBool _ => "bool"
  | PInt _ => "int"
  | PFloat _ _ => "float"
  | PStr _ => "str"
  | PList _ => "list"
  | PDict _ => "dict"
  | PObj t => t
  end.

(** [x[key]] for a string key. *)
Definition getitem (x : pyval) (key : string) : result pyval :=
  match x with
  | PDict d =>
      match Argparse.assoc key d with
      | Some v => Ok v
      | None => Raise (KeyError key)
      end
  | PList _ =>
      Raise (TypeError "list indices must be integers or slices, not str")
  | PStr _ => Raise (TypeError "string indices must be integers, not 'str'")
  | _ => Raise (TypeError ("'" +:+ type_name_of x
                               +:+ "' object is not subscriptable"))
  end.

(** The items [for segment in x] visits. *)
Definition iterate (x : pyval) : result (list pyval) :=
  match x with
  | PList l => Ok l
  | PDict d => Ok (map (fun kv => PStr (fst kv)) d)
  | PStr s =>
      Ok (map (fun c => PStr (String c EmptyString)) (list_ascii_of_string s))
  | _ => Raise (TypeError ("'" +:+ type_name_of x
                               +:+ "' object is not iterable"))
  end.

Inductive json :=
| JNull
| JBool (b : bool)
| JInt (z : Z)
| JFloat (mantissa exponent : Z)
| JStr (s : string)
| JArr (items : list json)
| JObj (members : list (string * json)).

(** What [json.dump] makes of a value; it raises on the first object it
    cannot encode. *)
Fixpoint encode (v : pyval) : result json :=
  match v with
  | PNone => Ok JNull
  | PBool b => Ok (JBool b)
  | PInt z => Ok (JInt z)
  | PFloat m e => Ok (JFloat m e)
  | PStr s => Ok (JStr s)
  | PList l =>
      match (fix items (l : list pyval) : result (list json) :=
               match l with
               | [] => Ok []
               | x :: r =>
                   match encode x with
                   | Raise e => Raise e
                   | Ok j => match items r with
                             | Raise e => Raise e
                             | Ok js => Ok (j :: js)
                             end
                   end
               end) l with
      | Raise e => Raise e
      | Ok js => Ok (JArr js)
      end
  | PDict d =>
      match (fix members (d : list (string * pyval))
               : result (list (string * json)) :=
               match d with
               | [] => Ok []
               | (k, x) :: r =>
                   match encode x with
                   | Raise e => Raise e
                   | Ok j => match members r with
                             | Raise e => Raise e
                             | Ok js => Ok ((k, j) :: js)
                             end
                   end
               end) d with
      | Raise e => Raise e
      | Ok ms => Ok (JObj ms)
      end
  | PObj t =>
      Raise (TypeError ("Object of type " +:+ t +:+ " is not JSON serializable"))
  end.


(** ** Reshaping the segments (lines 61-67) *)

(** The dictionary built for one segment; the three subscripts are
    evaluated in the order of the dictionary display. *)
Definition reshape (segment : pyval) : result pyval :=
  match getitem segment "text" with
  | Raise e => Raise e
  | Ok text =>
      match getitem segment "start" with
      | Raise e => Raise e
      | Ok start =>
          match getitem segment "end" with
          | Raise e => Raise e
          | Ok end_ =>
              Ok (PDict [("text", text); ("start_time", start);
                         ("end_time", end_)])
          end
      end
  end.

(** The loop body [segments.append({...})] folded over the items. *)
Fixpoint append_segments (items segments : list pyval)
  : result (list pyval) :=
  match items with
  | [] => Ok segments
  | segment :: rest =>
      match reshape segment with
      | Raise e => Raise e
      | Ok d => append_segments rest (segments ++ [d])
      end
  end.

(** [segments = []; for segment in result["segments"]: ...] *)
Definition process_segments (result_ : pyval) : result (list pyval) :=
  match getitem result_ "segments" with
  | Raise e => Raise e
  | Ok segs =>
      match iterate segs with
      | Raise e => Raise e
      | Ok items => append_segments items []
      end
  end.

(** ** The world the script runs in *)

(** What a file holds. *)
Inductive content :=
| Raw (data : string)                  (* any other file, such as the audio *)
| JsonText (doc : json) (indent : nat) (* the complete output of [json.dump] *)
| Truncated.                           (* [json.dump] raised half way *)

Inductive level := INFO | ERROR.

Inductive message :=
| NumPyVersion (v : string)
| PyTorchVersion (v : string)
| InputMissing (path : option string)
| InputSize (bytes : Z)            (* printed in megabytes *)
| LoadingModel (name : option string)
| ModelLoaded
| Transcribing (path : option string)
| Completed
| Transcribed (segments : nat)
| ErrorDuring (msg : string)
| Traceback (e : exn).

(** A loaded model is an opaque handle. *)
Inductive model_handle := WhisperModel (id : nat).

Inductive event :=
| EvImport (module_name : string) (ok : bool)
| EvExists (path : string) (present : bool)
| EvGetsize (path : string)
| EvLoadModel (name : option string) (device : string) (r : result model_handle)
| EvTranscribe (m : model_handle) (path : option string) (fp16 : bool)
               (r : result pyval)
| EvOpenW (path : string) (ok : bool)
| EvDump (path : string) (obj : pyval) (indent : nat)
| EvLog (lvl : level) (msg : message).

Record world := mkWorld {
  files : gmap string content;
  trace : list event
}.

(** Everything the run depends on besides the files: the command line and
    the outcome of each call into the libraries and the system. *)
Record env := mkEnv {
  argv : list string;                    (* [sys.argv[1:]] *)
  import_numpy : result string;          (* [numpy.__version__] *)
  import_torch : result string;          (* [torch.__version__] *)
  import_whisper : result unit;
  open_error : string -> option exn;     (* why [open(path, "w")] fails *)
  stat_size : string -> Z;
  load_model : option string -> string -> result model_handle;
  transcribe : model_handle -> option string -> bool -> result pyval
}.

(** ** The monad: state and exceptions *)

Definition M (A : Type) : Type := world -> result A * world.

Definition ret {A} (a : A) : M A := fun w => (Ok a, w).

Definition raise {A} (e : exn) : M A := fun w => (Raise e, w).

Definition bind {A B} (c : M A) (k : A -> M B) : M B :=
  fun w => match c w with
           | (Ok a, w') => k a w'
           | (Raise e, w') => (Raise e, w')
           end.

Notation "x <- c ;; k" := (bind c (fun x => k))
  (at level 100, c at next level, right associativity).
Notation "c ;; k" := (bind c (fun _ => k))
  (at level 100, right associativity).

(** [try: body except Exception as e: handler e] *)
Definition try_except {A} (body : M A) (handler : exn -> M A) : M A :=
  fun w => match body w with
           | (Ok a, w') => (Ok a, w')
           | (Raise e, w') => handler e w'
           end.

Definition lift {A} (r : result A) : M A := fun w => (r, w).

Definition emit (ev : event) : M unit :=
  fun w => (Ok tt, mkWorld (files w) (trace w ++ [ev])).

Definition log (lvl : level) (msg : message) : M unit := emit (EvLog lvl msg).

Definition set_file (path : string) (c : content) : M unit :=
  fun w => (Ok tt, mkWorld (<[path := c]> (files w)) (trace w)).

(** [import name] *)
Definition import_ {A} (name : string) (outcome : result A) : M A :=
  emit (EvImport name (match outcome with Ok _ => true | Raise _ => false end)) ;;
  lift outcome.

(** [str(x)] inside an f-string, for a namespace attribute. *)
Definition format (x : option string) : string :=
  match x with
  | Some s => s
  | None => "None"
  end.

(** [os.path.exists(path)] *)
Definition os_path_exists (path : option string) : M bool :=
  match path with
  | None =>
      raise (TypeError
        "stat: path should be string, bytes, os.PathLike or integer, not NoneType")
  | Some p =>
      fun w =>
        let present := match files w !! p with
                       | Some _ => true
                       | None => false
                       end in
        (Ok present, mkWorld (files w) (trace w ++ [EvExists p present]))
  end.

(** [os.path.getsize(path)] *)
Definition os_path_getsize (e : env) (path : option string) : M Z :=
  match path with
  | None =>
      raise (TypeError
        "stat: path should be string, bytes, os.PathLike or integer, not NoneType")
  | Some p =>
      emit (EvGetsize p) ;;
      fun w =>
        match files w !! p with
        | Some _ => (Ok (stat_size e p), w)
        | None =>
            (Raise (mkExn "FileNotFoundError"
                      ("[Errno 2] No such file or directory: '" +:+ p +:+ "'")),
             w)
        end
  end.

(** [whisper.load_model(name, device=device)] *)
Definition whisper_load_model (e : env) (name : option string)
    (device : string) : M model_handle :=
  let r := load_model e name device in
  emit (EvLoadModel name device r) ;; lift r.

(** [model.transcribe(path, fp16=fp16)] *)
Definition model_transcribe (e : env) (m : model_handle)
    (path : option string) (fp16 : bool) : M pyval :=
  let r := transcribe e m path fp16 in
  emit (EvTranscribe m path fp16 r) ;; lift r.

(** [open(path, "w")]: creates or empties the file. *)
Definition open_w (e : env) (path : option string) : M string :=
  match path with
  | None =>
      raise (TypeError
        "expected str, bytes or os.PathLike object, not NoneType")
  | Some p =>
      match open_error e p with
      | Some ex => emit (EvOpenW p false) ;; raise ex
      | None => emit (EvOpenW p true) ;; set_file p (Raw "") ;; ret p
      end
  end.

(** [json.dump(obj, f, indent=indent)] on the file just opened: the chunks
    written before an object that cannot be encoded stay in the file. *)
Definition json_dump (obj : pyval) (f : string) (indent : nat) : M unit :=
  emit (EvDump f obj indent) ;;
  match encode obj with
  | Ok doc => set_file f (JsonText doc indent)
  | Raise ex => set_file f Truncated ;; raise ex
  end.

(** [with open(path, "w") as f: json.dump(obj, f, indent=2)] *)
Definition write_json (e : env) (path : option string) (obj : pyval) : M unit :=
  f <- open_w e path ;;
  json_dump obj f 2.

(** ** [main] (lines 16-92) *)

(** The document of lines 41-44. *)
Definition missing_input_document (input : option string) : pyval :=
  PDict [("error", PStr ("Input file does not exist: " +:+ format input));
         ("segments", PList [])].

(** The document of line 71. *)
Definition segments_document (segments : list pyval) : pyval :=
  PDict [("segments", PList segments)].

(** The document of lines 82-89. *)
Definition error_document (msg : string) : pyval :=
  PDict [("error", PStr msg);
         ("segments",
          PList [PDict [("text", PStr ("Error transcribing audio: " +:+ msg));
                        ("start_time", PInt 0);
                        ("end_time", PInt 0)]])].

Import Argparse.

(** The body of the [try] (lines 26-74); [Some 1] is the [return 1] of
    line 45, [None] is falling out of the block. *)
Definition try_block (e : env) (args : namespace) : M (option Z) :=
  numpy_version <- import_ "numpy" (import_numpy e) ;;
  log INFO (NumPyVersion numpy_version) ;;
  torch_version <- import_ "torch" (import_torch e) ;;
  log INFO (PyTorchVersion torch_version) ;;
  import_ "whisper" (import_whisper e) ;;
  present <- os_path_exists (input args) ;;
  if negb present then
    log ERROR (InputMissing (input args)) ;;
    write_json e (output args) (missing_input_document (input args)) ;;
    ret (Some 1)
  else
    size <- os_path_getsize e (input args) ;;
    log INFO (InputSize size) ;;
    log INFO (LoadingModel (model args)) ;;
    m <- whisper_load_model e (model args) "cpu" ;;
    log INFO ModelLoaded ;;
    log INFO (Transcribing (input args)) ;;
    result_ <- model_transcribe e m (input args) false ;;
    segments <- lift (process_segments result_) ;;
    write_json e (output args) (segments_document segments) ;;
    log INFO Completed ;;
    log INFO (Transcribed (length segments)) ;;
    ret None.

(** The [except Exception as e] clause (lines 76-90). *)
Definition handler (e : env) (args : namespace) (ex : exn) : M Z :=
  log ERROR (ErrorDuring (exn_str ex)) ;;
  log ERROR (Traceback ex) ;;
  write_json e (output args) (error_document (exn_str ex)) ;;
  ret 1.

(** [main] once the arguments are parsed. *)
Definition main (e : env) (args : namespace) : M Z :=
  try_except
    (r <- try_block e args ;;
     ret (match r with Some status => status | None => 0 end))
    (handler e args).

(** How the process ends. *)
Inductive termination :=
| Returned (status : Z)     (* [sys.exit(main())] *)
| SystemExit (status : Z)   (* raised by [parse_args] *)
| Uncaught (ex : exn).      (* an exception left [main] *)

Definition exit_status (t : termination) : Z :=
  match t with
  | Returned s => s
  | SystemExit s => s
  | Uncaught _ => 1
  end.

(** One run of the script on a file system. *)
Definition run (e : env) (fs : gmap string content) : termination * world :=
  match parse_args (argv e) with
  | Exit status => (SystemExit status, mkWorld fs [])
  | Parsed args =>
      match main e args (mkWorld fs []) with
      | (Ok status, w) => (Returned status, w)
      | (Raise ex, w) => (Uncaught ex, w)
      end
  end.

(** ** Vocabulary of the statements *)



(** [parse_optional] does not take [s] for a plain argument. *)
Definition flag_like (s : string) : bool :=
  match parse_optional s with
  | Parsed Positional => false
  | _ => true
  end.

(** A plain argument string: what can follow [--input] as its value. *)
Definition plain (s : string) : bool := negb (flag_like s).


Definition input_path (e : env) : option string :=
  match parse_args (argv e) with
  | Parsed args => input args
  | Exit _ => None
  end.






(** The object the specification maps a segment to. *)
Definition spec_segment (text start end_ : pyval) : pyval :=
  PDict [("text", text); ("start_time", start); ("end_time", end_)].

(** The shape of a result as the library documents it, a segment being a
    span of text with start and end offsets in seconds: a dictionary whose
    [segments] entry is a list of dictionaries with a string [text] and
    numeric [start] and [end]. *)
Definition is_number (v : pyval) : bool :=
  match v with
  | PInt _ | PFloat _ _ => true
  | _ => false
  end.

Definition whisper_segment (v : pyval) : bool :=
  match getitem v "text", getitem v "start", getitem v "end" with
  | Ok (PStr _), Ok a, Ok b => is_number a && is_number b
  | _, _, _ => false
  end.



(** ** Sample runs *)

Module Demo.

Definition hello : pyval :=
  PDict [("id", PInt 0); ("seek", PInt 0);
         ("start", PFloat 0 0); ("end", PFloat 7 (-1));
         ("text", PStr " Hello there.")].

Definition bye : pyval :=
  PDict [("id", PInt 1); ("seek", PInt 0);
         ("start", PFloat 7 (-1)); ("end", PFloat 5 0);
         ("text", PStr " Goodbye.")].

Definition transcription : pyval :=
  PDict [("text", PStr " Hello there. Goodbye.");
         ("segments", PList [hello; bye]);
         ("language", PStr "en")].

Definition command : list string :=
  ["--input"; "a.wav"; "--output"; "out.json"].

(** Everything works. *)
Definition good : env :=
  mkEnv command (Ok "1.26.4") (Ok "2.2.0") (Ok tt)
        (fun _ => None) (fun _ => 4)
        (fun _ _ => Ok (WhisperModel 0))
        (fun _ _ _ => Ok transcription).

Definition with_audio : gmap string content := {[ "a.wav" := Raw "RIFF" ]}.








(** What [parse_args] returns for [command]. *)
Definition parsed_command : namespace :=
  mkNamespace (Some "a.wav") (Some "out.json") (Some "tiny").


End Demo.

(** ** Invariants of the consume loop *)

Definition get (d : dest) (n : namespace) : option string :=
  match d with
  | Input => input n
  | Output => output n
  | Model => model n
  end.

(** An attribute holds a string once its option was seen and its default
    until then. *)
Definition coherent (st : pstate) : Prop :=
  forall d, if seen_dest d st then is_Some (get d (ns st))
            else get d (ns st) = get d initial_namespace.

(** A token a successful parse can contain: an argument, or one of the
    three declared options. *)
Definition store_token (t : token) : Prop :=
  match t with
  | TokA _ => True
  | TokO (Some a) _ _ _ => exists d, kind a = Store d
  | _ => False
  end.


(** What a run of the consume loop from [st] to [st'] over [toks]
    guarantees. *)
Definition step_facts (toks : list token) (st st' : pstate) : Prop :=
  (length (extras st) <= length (extras st'))%nat /\
  (length (extras st') = length (extras st) -> Forall store_token toks) /\
  (coherent st -> coherent st') /\
  (forall d, seen_dest d st' = true ->
             seen_dest d st = true \/
             exists a os e s,
               In (TokO (Some a) os e s) toks /\ kind a = Store d) /\
  (forall d, (forall a os e s,
                In (TokO (Some a) os e s) toks -> kind a <> Store d) ->
             get d (ns st') = get d (ns st)).

(** ** Further vocabulary *)

(** The declared action that stores into [d]. *)
Definition action_of (d : dest) : action :=
  match d with
  | Input => input_action
  | Output => output_action
  | Model => model_action
  end.

(** [parse_optional] finds [s] ambiguous and calls [parser.error]. *)
Definition ambiguous (s : string) : bool :=
  match parse_optional s with
  | Exit _ => true
  | Parsed _ => false
  end.

(** The calls into the model library and the size query: what the script
    does only for an input file that exists. *)
Definition works_on_input (ev : event) : bool :=
  match ev with
  | EvGetsize _ | EvLoadModel _ _ _ | EvTranscribe _ _ _ _ => true
  | _ => false
  end.

Definition is_load (ev : event) : bool :=
  match ev with
  | EvLoadModel _ _ _ => true
  | _ => false
  end.

Definition is_transcription (ev : event) : bool :=
  match ev with
  | EvTranscribe _ _ _ _ => true
  | _ => false
  end.

Definition is_error_log (ev : event) : bool :=
  match ev with
  | EvLog ERROR _ => true
  | _ => false
  end.


(** The first of the three keys, in the order the script reads them, that a
    segment dictionary lacks. *)
Definition first_missing_key (d : list (string * pyval)) : option string :=
  match assoc "text" d, assoc "start" d, assoc "end" d with
  | None, _, _ => Some "text"
  | Some _, None, _ => Some "start"
  | Some _, Some _, None => Some "end"
  | Some _, Some _, Some _ => None
  end.

(** The long option string of a declared action. *)
Definition long_flag (d : dest) : string :=
  match d with
  | Input => "--input"
  | Output => "--output"
  | Model => "--model"
  end.

(** ** Further sample runs *)

Module Cases.


(** A segment without [text]. *)
Definition no_text : pyval :=
  PDict [("id", PInt 1); ("start", PFloat 7 (-1)); ("end", PFloat 5 0)].

Definition broken_transcription : pyval :=
  PDict [("text", PStr " Hello there.");
         ("segments", PList [Demo.hello; no_text; Demo.bye]);
         ("language", PStr "en")].

(** [Demo.transcription] with nothing but the three fields of each
    segment. *)
Definition bare_transcription : pyval :=
  PDict [("segments",
          PList [PDict [("text", PStr " Hello there.");
                        ("start", PFloat 0 0); ("end", PFloat 7 (-1))];
                 PDict [("text", PStr " Goodbye.");
                        ("start", PFloat 7 (-1)); ("end", PFloat 5 0)]])].




(** [--help] in front of a flag the parser does not know. *)
Definition asks_for_help : env :=
  mkEnv ["--help"; "--bogus"] (Ok "1.26.4") (Ok "2.2.0") (Ok tt)
        (fun _ => None) (fun _ => 4)
        (fun _ _ => Ok (WhisperModel 0))
        (fun _ _ _ => Ok Demo.transcription).

End Cases.

(** * Properties *)

(** ** The argument parser *)

Module ArgparseFacts.



Lemma seen_take_store d d' v st :
  seen_dest d (take_store d' v st) = dest_eqb d d' || seen_dest d st.
Proof. reflexivity. Qed.

Lemma dest_eqb_eq a b : dest_eqb a b = true <-> a = b.
Proof. destruct a, b; simpl; split; congruence. Qed.

Lemma get_setattr d d' v n :
  get d (setattr d' v n) = if dest_eqb d d' then Some v else get d n.
Proof. destruct d, d'; reflexivity. Qed.

Lemma coherent_take_store d v st : coherent st -> coherent (take_store d v st).
Proof.
  intros H d'. rewrite seen_take_store. simpl ns. rewrite get_setattr.
  specialize (H d'). destruct (dest_eqb d' d); simpl; [eauto | exact H].
Qed.

Lemma consume_facts n : forall toks st st',
  (length toks <= n)%nat -> consume toks st = Parsed st' ->
  step_facts toks st st'.
Proof.
  induction n as [|n IH]; intros toks st st' Hn H.
  - destruct toks; [|simpl in Hn; lia]. simpl in H. injection H as <-.
    repeat split; auto.
  - destruct toks as [|t rest]; simpl in H.
    { injection H as <-. repeat split; auto. }
    simpl in Hn.
    assert (Hskip : forall s,
              (forall a os e x, t <> TokO (Some a) os e x) ->
              consume rest (add_extra s st) = Parsed st' ->
              step_facts (t :: rest) st st').
    { intros s Ht Hc. apply IH in Hc; [|lia].
      destruct Hc as (H1 & H2 & H3 & H4 & H5). simpl in H1.
      rewrite length_app in H1. simpl in H1.
      repeat split.
      - lia.
      - intros Heq. lia.
      - intros Hco. apply H3. exact Hco.
      - intros d Hd. destruct (H4 d Hd) as [Hs|(a & os & e & x & Hin & Hk)].
        + left. exact Hs.
        + right. exists a, os, e, x. split; [now right | exact Hk].
      - intros d Hd. rewrite H5; [reflexivity|].
        intros a os e x Hin. apply (Hd a os e x). now right. }
    assert (Hstore : forall a os e x d v toks',
              t = TokO (Some a) os e x -> kind a = Store d ->
              (length toks' <= n)%nat ->
              (forall u, In u toks' -> In u rest) ->
              (forall u, In u rest -> In u toks' \/ exists s, u = TokA s) ->
              consume toks' (take_store d v st) = Parsed st' ->
              step_facts (t :: rest) st st').
    { intros a os e x d v toks' -> Hk Hlen Hsub Hsup Hc.
      apply IH in Hc; [|lia].
      destruct Hc as (H1 & H2 & H3 & H4 & H5). simpl in H1, H2.
      repeat split.
      - exact H1.
      - intros Heq. constructor; [simpl; eauto|].
        apply List.Forall_forall. intros u Hu.
        destruct (Hsup u Hu) as [Hin|[s ->]]; [|exact I].
        specialize (H2 Heq). rewrite List.Forall_forall in H2. now apply H2.
      - intros Hco. apply H3. now apply coherent_take_store.
      - intros d' Hd. destruct (H4 d' Hd) as [Hs|(a' & os' & e' & x' & Hin & Hk')].
        + rewrite seen_take_store in Hs. apply orb_true_iff in Hs.
          destruct Hs as [Hs|Hs]; [|now left].
          apply dest_eqb_eq in Hs. subst d'. right.
          exists a, os, e, x. split; [now left | exact Hk].
        + right. exists a', os', e', x'. split; [right; now apply Hsub | exact Hk'].
      - intros d' Hd. rewrite H5.
        + simpl ns. rewrite get_setattr.
          destruct (dest_eqb d' d) eqn:Hdd; [|reflexivity].
          apply dest_eqb_eq in Hdd. subst d'.
          exfalso. apply (Hd a os e x); [now left | exact Hk].
        + intros a' os' e' x' Hin. apply (Hd a' os' e' x'). right. now apply Hsub. }
    destruct t as [s|[a|] os e s|].
    + apply (Hskip s); [discriminate | exact H].
    + destruct (kind a) as [d|] eqn:Hk.
      * destruct e as [v|].
        -- apply (Hstore a os (Some v) s d v rest eq_refl Hk); auto. lia.
        -- destruct rest as [|[v| |] rest']; try discriminate.
           apply (Hstore a os None s d v rest' eq_refl Hk); auto.
           ++ simpl in Hn. lia.
           ++ intros u Hu. now right.
           ++ intros u [<-|Hu]; [right; eauto | now left].
      * destruct e as [x|]; [|discriminate].
        destruct (negb (second_is_dash os) && negb (String.eqb x "")); discriminate.
    + apply (Hskip s); [discriminate | exact H].
    + apply (Hskip "--"); [discriminate | exact H].
Qed.

Lemma parse_args_inv arg_strings a :
  parse_args arg_strings = Parsed a ->
  exists toks st,
    classify arg_strings = Parsed toks /\
    consume toks (mkPstate initial_namespace [] []) = Parsed st /\
    missing_required st = false /\ extras st = [] /\ a = ns st.
Proof.
  unfold parse_args. intros H.
  destruct (classify arg_strings) as [toks|c]; [|discriminate].
  destruct (consume toks _) as [st|c] eqn:Hc; [|discriminate].
  destruct (missing_required st) eqn:Hm; [discriminate|].
  destruct (extras st) eqn:He; [|discriminate].
  injection H as <-. exists toks, st. auto.
Qed.

Lemma coherent_initial : coherent (mkPstate initial_namespace [] []).
Proof. intros d. reflexivity. Qed.

Lemma required_seen st :
  missing_required st = false ->
  seen_dest Input st = true /\ seen_dest Output st = true.
Proof.
  unfold missing_required. simpl.
  destruct (seen_dest Input st), (seen_dest Output st); simpl; auto; discriminate.
Qed.

(** A successful parse leaves a string in each of the three attributes. *)
Lemma parse_args_strings arg_strings a :
  parse_args arg_strings = Parsed a ->
  exists i o m, a = mkNamespace (Some i) (Some o) (Some m).
Proof.
  intros H. apply parse_args_inv in H.
  destruct H as (toks & st & _ & Hc & Hm & _ & ->).
  apply (consume_facts (length toks)) in Hc; [|lia].
  destruct Hc as (_ & _ & Hco & _ & _).
  specialize (Hco coherent_initial).
  apply required_seen in Hm. destruct Hm as [Hi Ho].
  pose proof (Hco Input) as Ci. pose proof (Hco Output) as Co.
  pose proof (Hco Model) as Cm.
  rewrite Hi in Ci. rewrite Ho in Co. simpl in Ci, Co.
  assert (Cm' : is_Some (model (ns st))).
  { destruct (seen_dest Model st); [exact Cm|]. simpl in Cm. rewrite Cm. eauto. }
  destruct Ci as [i Ci], Co as [o Co], Cm' as [m Cm'].
  exists i, o, m. destruct (ns st); simpl in *; congruence.
Qed.




Lemma plain_classify s rest toks :
  plain s = true -> classify rest = Parsed toks ->
  classify (s :: rest) = Parsed (TokA s :: toks).
Proof.
  unfold plain, flag_like. intros Hp Hc. simpl.
  destruct (String.eqb_spec s "--") as [->|_]; [discriminate|].
  destruct (parse_optional s) as [[|]|]; try discriminate.
  now rewrite Hc.
Qed.

Lemma option_classify s a rest toks :
  s <> "--" ->
  parse_optional s = Parsed (Optional (Some a) s None) ->
  classify rest = Parsed toks ->
  classify (s :: rest) = Parsed (TokO (Some a) s None s :: toks).
Proof.
  intros Hne Ho Hc. cbn [classify].
  destruct (String.eqb_spec s "--") as [->|_]; [contradiction|].
  now rewrite Ho, Hc.
Qed.



Lemma parse_optional_exit s c : parse_optional s = Exit c -> c = 2.
Proof.
  unfold parse_optional. destruct s as [|ch r]; [discriminate|].
  destruct (negb (Ascii.eqb ch "-")); [discriminate|].
  destruct (assoc _ _); [discriminate|].
  destruct r; [discriminate|].
  destruct (match Str.split1 "=" _ with Some _ => _ | None => _ end);
    [discriminate|].
  destruct (get_option_tuples _) as [|[[? ?] ?] [|? ?]].
  - destruct (negative_number _); [discriminate|].
    destruct (Str.contains _ _); discriminate.
  - discriminate.
  - congruence.
Qed.

Lemma classify_exit arg_strings c : classify arg_strings = Exit c -> c = 2.
Proof.
  induction arg_strings as [|s rest IH]; simpl; [discriminate|].
  destruct (String.eqb s "--"); [discriminate|].
  destruct (parse_optional s) eqn:Ho.
  - destruct (classify rest); [discriminate|]. intros H. apply IH. congruence.
  - intros H. injection H as <-. eapply parse_optional_exit. exact Ho.
Qed.

Lemma help_chain_status x : forall rest,
  help_chain x rest = 0 \/ help_chain x rest = 2.
Proof.
  induction x as [|ch x IH]; intros rest; cbn [help_chain]; [now right|].
  destruct (assoc (String "-" (String ch EmptyString)) option_string_actions)
    as [a|]; [|now right].
  destruct (kind a), x; auto.
  destruct (next_argument rest); auto.
Qed.

Lemma consume_exit n : forall toks st c,
  (length toks <= n)%nat -> consume toks st = Exit c -> c = 0 \/ c = 2.
Proof.
  induction n as [|n IH]; intros toks st c Hn H.
  - destruct toks; [discriminate | simpl in Hn; lia].
  - destruct toks as [|t rest]; [discriminate|]. simpl in Hn, H.
    destruct t as [s|[a|] os e s|].
    + apply IH in H; [exact H | lia].
    + destruct (kind a).
      * destruct e as [v|]; [apply IH in H; [exact H | lia]|].
        destruct rest as [|[v| |] rest']; try (injection H as <-; now right).
        apply IH in H; [exact H | simpl in Hn; lia].
      * destruct e as [x|]; [|injection H as <-; now left].
        destruct (negb (second_is_dash os) && negb (String.eqb x ""));
          injection H as <-; [apply help_chain_status | now right].
    + apply IH in H; [exact H | lia].
    + apply IH in H; [exact H | lia].
Qed.

(** [parse_args] leaves with status 0 (help) or 2 (error) when it does not
    return a namespace. *)
Lemma parse_args_exit arg_strings c :
  parse_args arg_strings = Exit c -> c = 0 \/ c = 2.
Proof.
  unfold parse_args. destruct (classify arg_strings) as [toks|c'] eqn:Hc.
  - destruct (consume toks _) as [st|c'] eqn:Hs.
    + destruct (missing_required st); [intros H; injection H as <-; now right|].
      destruct (extras st); [discriminate|]. intros H; injection H as <-; now right.
    + intros H. injection H as <-. eapply (consume_exit (length toks)); eauto.
  - intros H. injection H as <-. right. eapply classify_exit. exact Hc.
Qed.

End ArgparseFacts.

Import ArgparseFacts.



(** ** Reshaping and encoding *)




(** [reshape] succeeds exactly on items that have the three entries. *)
Lemma reshape_ok segment d :
  reshape segment = Ok d <->
  exists text start end_,
    getitem segment "text" = Ok text /\ getitem segment "start" = Ok start /\
    getitem segment "end" = Ok end_ /\ d = spec_segment text start end_.
Proof.
  unfold reshape, spec_segment. split.
  - destruct (getitem segment "text") as [t|]; [|discriminate].
    destruct (getitem segment "start") as [a|]; [|discriminate].
    destruct (getitem segment "end") as [b|]; [|discriminate].
    intros H. injection H as <-. now exists t, a, b.
  - intros (t & a & b & -> & -> & -> & ->). reflexivity.
Qed.

Lemma append_segments_ok items : forall acc out,
  append_segments items acc = Ok out ->
  exists ds, out = (acc ++ ds)%list /\
             Forall2 (fun item d => reshape item = Ok d) items ds.
Proof.
  induction items as [|x items IH]; intros acc out H; simpl in H.
  - injection H as <-. exists []. split; [now rewrite app_nil_r | constructor].
  - destruct (reshape x) as [d|] eqn:Hd; [|discriminate].
    apply IH in H. destruct H as (ds & -> & HF).
    exists (d :: ds). split; [now rewrite <- app_assoc | now constructor].
Qed.

Lemma append_segments_total items : forall acc,
  forallb whisper_segment items = true ->
  exists ds, append_segments items acc = Ok (acc ++ ds)%list /\
             Forall (fun d => exists j, encode d = Ok j) ds.
Proof.
  induction items as [|x items IH]; intros acc H; simpl in H.
  - exists []. split; [simpl; now rewrite app_nil_r | constructor].
  - apply andb_true_iff in H. destruct H as [Hx Hr].
    unfold whisper_segment in Hx. simpl. unfold reshape.
    destruct (getitem x "text") as [[| | | |t| | |]|]; try discriminate.
    destruct (getitem x "start") as [a|]; try discriminate.
    destruct (getitem x "end") as [b|]; try discriminate.
    apply andb_true_iff in Hx. destruct Hx as [Ha Hb].
    destruct (IH (acc ++ [spec_segment (PStr t) a b])%list Hr)
      as (ds & Hds & HF).
    exists (spec_segment (PStr t) a b :: ds).
    split.
    + unfold spec_segment in Hds |- *. rewrite Hds. now rewrite <- app_assoc.
    + constructor; [|exact HF].
      destruct a; try discriminate; destruct b; try discriminate; simpl; eauto.
Qed.



(** C4.  For a transcription result whose [segments] entry is a list, the
    list the script builds has one object per segment, in the same order:
    the object at each position has the [text], [start] and [end] of the
    segment at that position under the keys [text], [start_time] and
    [end_time].  The list is built whenever every segment is of the
    documented shape. *)
Theorem segments_are_reshaped (r : pyval) (segs : list pyval) :
  getitem r "segments" = Ok (PList segs) ->
  (forall out, process_segments r = Ok out ->
     length out = length segs /\
     forall n seg, segs !! n = Some seg ->
       exists text start end_,
         getitem seg "text" = Ok text /\ getitem seg "start" = Ok start /\
         getitem seg "end" = Ok end_ /\
         out !! n = Some (spec_segment text start end_)) /\
  (forallb whisper_segment segs = true ->
   exists out, process_segments r = Ok out).
Proof.
  intros Hr. unfold process_segments. rewrite Hr. simpl. split.
  - intros out H. apply append_segments_ok in H.
    destruct H as (ds & -> & HF). simpl. split.
    + symmetry. eapply Forall2_length. exact HF.
    + intros n seg Hn.
      destruct (Forall2_lookup_l _ _ _ _ _ HF Hn) as (d & Hd & Hre).
      apply reshape_ok in Hre. destruct Hre as (t & a & b & H1 & H2 & H3 & ->).
      exists t, a, b. auto.
  - intros H. destruct (append_segments_total segs [] H) as (ds & Hds & _).
    exists ds. exact Hds.
Qed.

(** [segments_are_reshaped] on a sample result. *)
Lemma segments_are_reshaped_witness :
  getitem Demo.transcription "segments" = Ok (PList [Demo.hello; Demo.bye]) /\
  process_segments Demo.transcription
  = Ok [spec_segment (PStr " Hello there.") (PFloat 0 0) (PFloat 7 (-1));
        spec_segment (PStr " Goodbye.") (PFloat 7 (-1)) (PFloat 5 0)] /\
  (forall out, process_segments Demo.transcription = Ok out ->
     length out = 2%nat /\
     exists text start end_,
       getitem Demo.bye "text" = Ok text /\ getitem Demo.bye "start" = Ok start /\
       getitem Demo.bye "end" = Ok end_ /\
       out !! 1%nat = Some (spec_segment text start end_)).
Proof.
  split; [reflexivity|]. split; [reflexivity|].
  intros out Hout.
  destruct (segments_are_reshaped Demo.transcription [Demo.hello; Demo.bye]
              eq_refl) as [H _].
  destruct (H out Hout) as [Hlen Hnth].
  split; [exact Hlen|]. exact (Hnth 1%nat Demo.bye eq_refl).
Defined.

(** ** Runs *)

Opaque segments_document.

(** Unfold one run of [main] into its paths. *)
Ltac unfold_main H :=
  unfold main, try_except, try_block, handler, write_json, open_w, json_dump,
    whisper_load_model, model_transcribe, os_path_getsize, os_path_exists,
    import_, log, emit, set_file, lift, raise, ret, bind in H;
  simpl in H.

Ltac split_on H t := destruct t eqn:?; simpl in H.

Ltac main_paths H :=
  unfold_main H;
  repeat match type of H with
    | context [import_numpy ?e] => split_on H (import_numpy e)
    | context [import_torch ?e] => split_on H (import_torch e)
    | context [import_whisper ?e] => split_on H (import_whisper e)
    | context [@lookup _ _ (gmap string content) _ ?i ?fs] =>
        lazymatch fs with
        | insert _ _ _ => fail
        | _ => split_on H (fs !! i)
        end
    | context [open_error ?e ?o] => split_on H (open_error e o)
    | context [load_model ?e ?m ?d] => split_on H (load_model e m d)
    | context [transcribe ?e ?m ?p ?b] => split_on H (transcribe e m p b)
    | context [process_segments ?r] => split_on H (process_segments r)
    | context [encode (segments_document ?s)] =>
        split_on H (encode (segments_document s))
    end.

Lemma run_parsed e fs args :
  parse_args (argv e) = Parsed args ->
  run e fs = match main e args (mkWorld fs []) with
             | (Ok status, w) => (Returned status, w)
             | (Raise ex, w) => (Uncaught ex, w)
             end.
Proof. intros H. unfold run. now rewrite H. Qed.

Lemma run_exit e fs status :
  parse_args (argv e) = Exit status ->
  run e fs = (SystemExit status, mkWorld fs []).
Proof. intros H. unfold run. now rewrite H. Qed.

(** When [parse_args] exits, with status 0 or 2, nothing has run. *)
Lemma no_namespace_no_output e fs status :
  parse_args (argv e) = Exit status ->
  run e fs = (SystemExit status, mkWorld fs []) /\ (status = 0 \/ status = 2).
Proof.
  intros H. split; [now apply run_exit|].
  eapply parse_args_exit. exact H.
Qed.

(** Start the analysis of a run whose arguments were parsed. *)
Ltac run_paths Hp Hm :=
  let i := fresh "i" in let o := fresh "o" in let m := fresh "m" in
  let H := fresh "H" in
  pose proof (parse_args_strings _ _ Hp) as H;
  destruct H as (i & o & m & ->);
  rewrite (run_parsed _ _ _ Hp) in *;
  match goal with
  | |- context [main ?e ?a ?w] => destruct (main e a w) as [[?|?] ?] eqn:Hm
  | _ : context [main ?e ?a ?w] |- _ => destruct (main e a w) as [[?|?] ?] eqn:Hm
  end;
  main_paths Hm; try discriminate Hm.

(** A membership in a concrete trace, one event at a time. *)
Ltac in_trace H :=
  simpl in H;
  repeat (destruct H as [H|H]; [try discriminate H|]);
  try contradiction.






(** C7.  In every run, each call of [whisper.load_model] names the model of
    the parsed arguments and the device ["cpu"], and each call of
    [model.transcribe] passes the input path of the parsed arguments with
    [fp16=False]. *)
Theorem model_on_cpu_without_fp16 e fs ev :
  In ev (trace (snd (run e fs))) ->
  match ev with
  | EvLoadModel name device _ =>
      device = "cpu" /\
      exists args, parse_args (argv e) = Parsed args /\ name = model args
  | EvTranscribe _ path fp16 _ =>
      fp16 = false /\
      exists args, parse_args (argv e) = Parsed args /\ path = input args
  | _ => True
  end.
Proof.
  intros Hev. destruct (parse_args (argv e)) as [args|status] eqn:Hp.
  2:{ rewrite (run_exit _ _ _ Hp) in Hev. destruct Hev. }
  run_paths Hp Hm.
  all: injection Hm as <- <-; simpl in Hev.
  all: repeat (destruct Hev as [<-|Hev]; [simpl; eauto|]); try contradiction.
Qed.




(** ** Sample runs *)

Transparent segments_document.









(** [model_on_cpu_without_fp16] on a sample run. *)
Lemma model_on_cpu_without_fp16_witness :
  In (EvLoadModel (Some "tiny") "cpu" (Ok (WhisperModel 0)))
     (trace (snd (run Demo.good Demo.with_audio))) /\
  In (EvTranscribe (WhisperModel 0) (Some "a.wav") false (Ok Demo.transcription))
     (trace (snd (run Demo.good Demo.with_audio))) /\
  ("cpu" = "cpu" /\
   exists args, parse_args (argv Demo.good) = Parsed args /\
                Some "tiny" = model args) /\
  (false = false /\
   exists args, parse_args (argv Demo.good) = Parsed args /\
                Some "a.wav" = input args).
Proof.
  assert (Hl : In (EvLoadModel (Some "tiny") "cpu" (Ok (WhisperModel 0)))
                  (trace (snd (run Demo.good Demo.with_audio))))
    by (vm_compute; tauto).
  assert (Ht : In (EvTranscribe (WhisperModel 0) (Some "a.wav") false
                     (Ok Demo.transcription))
                  (trace (snd (run Demo.good Demo.with_audio))))
    by (vm_compute; tauto).
  split; [exact Hl|]. split; [exact Ht|]. split.
  - exact (model_on_cpu_without_fp16 Demo.good Demo.with_audio _ Hl).
  - exact (model_on_cpu_without_fp16 Demo.good Demo.with_audio _ Ht).
Defined.





(** * Further properties *)

(** ** The argument parser, continued *)

Lemma classify_app l : forall toks l2 toks2,
  classify l = Parsed toks -> ~ In TokDash toks ->
  classify l2 = Parsed toks2 ->
  classify (l ++ l2) = Parsed (toks ++ toks2)%list.
Proof.
  induction l as [|s l IH]; intros toks l2 toks2 H Hd H2; simpl in H.
  - injection H as <-. exact H2.
  - simpl. destruct (String.eqb s "--").
    + injection H as <-. exfalso. apply Hd. now left.
    + destruct (parse_optional s) as [o|c]; [|discriminate].
      destruct (classify l) as [toks'|c] eqn:Hc; [|discriminate].
      injection H as <-.
      rewrite (IH toks' l2 toks2 eq_refl (fun H => Hd (or_intror H)) H2).
      reflexivity.
Qed.

Lemma consume_app n more : forall toks st st',
  (length toks <= n)%nat -> consume toks st = Parsed st' ->
  consume (toks ++ more) st = consume more st'.
Proof.
  induction n as [|n IH]; intros toks st st' Hn H.
  - destruct toks; [|simpl in Hn; lia]. simpl in H. now injection H as <-.
  - destruct toks as [|t rest]; simpl in H.
    { now injection H as <-. }
    simpl in Hn. rewrite <- app_comm_cons. cbn [consume].
    destruct t as [s|[a|] os e s|].
    + apply IH; [lia | exact H].
    + destruct (kind a).
      * destruct e as [v|]; [apply IH; [lia | exact H]|].
        destruct rest as [|[v| |] rest']; try discriminate.
        rewrite <- app_comm_cons. apply IH; [simpl in Hn; lia | exact H].
      * destruct e as [x|]; [|discriminate].
        destruct (negb (second_is_dash os) && negb (String.eqb x ""));
          discriminate.
    + apply IH; [lia | exact H].
    + apply IH; [lia | exact H].
Qed.

Lemma declared_flag d flag :
  In flag (option_strings (action_of d)) ->
  flag <> "--" /\
  parse_optional flag = Parsed (Optional (Some (action_of d)) flag None).
Proof.
  destruct d; simpl; intros [<-|[<-|[]]]; split; (discriminate || reflexivity).
Qed.

Lemma seen_dest_take d d' v st :
  seen_dest d st = true -> seen_dest d (take_store d' v st) = true.
Proof. intros H. rewrite seen_take_store, H. apply orb_true_r. Qed.

(** X11.  With [--input=VALUE] and [--output=VALUE] any value is taken as it
    stands, also one that starts with a dash.  (The two-dash separator as a
    value is left out: CPython 3.11 stores an empty list for it.) *)
Theorem explicit_value_taken_as_is v o :
  v <> "--" -> o <> "--" ->
  parse_args ["--input=" +:+ v; "--output=" +:+ o]
  = Parsed (mkNamespace (Some v) (Some o) (Some "tiny")).
Proof.
  intros _ _. reflexivity.
Qed.



Lemma classify_total rest :
  Forall (fun s => s = "--" \/ ambiguous s = false) rest ->
  exists toks, classify rest = Parsed toks.
Proof.
  induction 1 as [|s rest Hs _ [toks IH]]; [now exists []|].
  cbn [classify]. destruct (String.eqb_spec s "--") as [->|Hne]; [eauto|].
  destruct Hs as [->|Hs]; [contradiction|]. unfold ambiguous in Hs.
  destruct (parse_optional s); [|discriminate]. rewrite IH. eauto.
Qed.

(** X13.  With [-h] or [--help] as the first argument, and no ambiguous
    abbreviation after it, the process exits with status 0 before [main] does
    anything: missing required options and unknown flags do not matter. *)
Theorem help_exits_first e fs flag rest :
  argv e = flag :: rest -> In flag ["-h"; "--help"] ->
  Forall (fun s => s = "--" \/ ambiguous s = false) rest ->
  run e fs = (SystemExit 0, mkWorld fs []).
Proof.
  intros Ha Hflag Hrest. apply run_exit. rewrite Ha.
  destruct (classify_total rest Hrest) as [toks Hc].
  unfold parse_args.
  assert (Hcl : classify (flag :: rest)
                = Parsed (TokO (Some help_action) flag None flag :: toks)).
  { apply option_classify; [| |exact Hc];
      destruct Hflag as [<-|[<-|[]]]; (discriminate || reflexivity). }
  rewrite Hcl. reflexivity.
Qed.

Ltac walk_prefix H s :=
  simpl in H;
  destruct s as [|? s];
  [ try discriminate H
  | simpl in H;
    match type of H with
    | context [ascii_dec ?a ?b] =>
        destruct (ascii_dec a b) as [->|]; [walk_prefix H s | discriminate H]
    | _ => try discriminate H
    end ].

Lemma abbreviation_read d s :
  (3 <= String.length s)%nat -> String.prefix s (long_flag d) = true ->
  s <> "--" /\
  parse_optional s
  = Parsed (Optional (Some (action_of d)) (long_flag d) None).
Proof.
  intros Hlen H. destruct d; unfold long_flag in H.
  all: walk_prefix H s.
  all: simpl in Hlen; try lia.
  all: split; [discriminate | reflexivity].
Qed.

Lemma read_classify s a os rest toks :
  s <> "--" ->
  parse_optional s = Parsed (Optional (Some a) os None) ->
  classify rest = Parsed toks ->
  classify (s :: rest) = Parsed (TokO (Some a) os None s :: toks).
Proof.
  intros Hne Ho Hc. cbn [classify].
  destruct (String.eqb_spec s "--") as [->|_]; [contradiction|].
  now rewrite Ho, Hc.
Qed.

Lemma appended_option arg_strings a d flag os v :
  parse_args arg_strings = Parsed a ->
  flag <> "--" ->
  parse_optional flag = Parsed (Optional (Some (action_of d)) os None) ->
  plain v = true ->
  parse_args (arg_strings ++ [flag; v]) = Parsed (setattr d v a).
Proof.
  intros H Hne Hpo Hv. apply parse_args_inv in H.
  destruct H as (toks & st & Hcl & Hc & Hm & He & ->).
  pose proof (consume_facts (length toks) toks _ _ (le_n _) Hc) as Hf.
  destruct Hf as (_ & Hall & _). rewrite He in Hall. specialize (Hall eq_refl).
  assert (Hnd : ~ In TokDash toks).
  { intros Hin. rewrite List.Forall_forall in Hall. exact (Hall _ Hin). }
  unfold parse_args.
  rewrite (classify_app arg_strings toks [flag; v]
             [TokO (Some (action_of d)) os None flag; TokA v] Hcl Hnd).
  2:{ apply read_classify; [exact Hne | exact Hpo |].
      now apply plain_classify. }
  rewrite (consume_app (length toks) _ toks _ st (le_n _) Hc).
  assert (Hk : kind (action_of d) = Store d) by now destruct d.
  cbn [consume]. rewrite Hk. cbn [consume].
  apply required_seen in Hm. destruct Hm as [Hi Ho].
  unfold missing_required. simpl.
  rewrite (seen_dest_take Input d v st Hi), (seen_dest_take Output d v st Ho).
  simpl. rewrite He. reflexivity.
Qed.

(** X10.  After a command line the parser takes, one more option, written in
    full or abbreviated to at least its first letter, with a plain value is
    taken too and replaces the earlier value of that option; the other
    attributes stay. *)
Theorem later_option_wins arg_strings a d flag v :
  parse_args arg_strings = Parsed a ->
  In flag (option_strings (action_of d)) \/
  ((3 <= String.length flag)%nat /\ String.prefix flag (long_flag d) = true) ->
  plain v = true ->
  parse_args (arg_strings ++ [flag; v]) = Parsed (setattr d v a).
Proof.
  intros H [Hflag|[Hlen Hpre]] Hv.
  - destruct (declared_flag d flag Hflag) as [Hne Hpo].
    exact (appended_option _ _ _ _ _ _ H Hne Hpo Hv).
  - destruct (abbreviation_read d flag Hlen Hpre) as [Hne Hpo].
    exact (appended_option _ _ _ _ _ _ H Hne Hpo Hv).
Qed.

(** X14.  A value glued to a short flag, as in [-iVALUE -oVALUE], is taken
    as it stands when it does not start with an equals sign.  (The two-dash
    separator as a value is left out, as above.) *)
Theorem glued_value_taken c v o_c o :
  Ascii.eqb "=" c = false -> Ascii.eqb "=" o_c = false ->
  String c v <> "--" -> String o_c o <> "--" ->
  parse_args [String "-" (String "i" (String c v));
              String "-" (String "o" (String o_c o))]
  = Parsed (mkNamespace (Some (String c v)) (Some (String o_c o)) (Some "tiny")).
Proof.
  intros Hc Ho _ _.
  assert (Hi : forall f a, In (f, a) [("i"%char, input_action); ("o"%char, output_action)] ->
               forall c v, Ascii.eqb "=" c = false ->
               parse_optional (String "-" (String f (String c v)))
               = Parsed (Optional (Some a) (String "-" (String f EmptyString))
                           (Some (String c v)))).
  { intros f a Hin c' v' Hc'.
    destruct Hin as [H|[H|[]]]; injection H as <- <-.
    all: unfold parse_optional; cbn -[Ascii.eqb Str.split1].
    all: unfold Str.split1; fold Str.split1.
    all: cbn -[Ascii.eqb Str.split1]; rewrite Hc'.
    all: destruct (Str.split1 "=" v') as [[p q]|]; reflexivity. }
  unfold parse_args. cbn [classify].
  change (String.eqb (String "-" (String "i" (String c v))) "--") with false.
  change (String.eqb (String "-" (String "o" (String o_c o))) "--") with false.
  cbv iota.
  rewrite (Hi "i"%char input_action (or_introl eq_refl) c v Hc).
  rewrite (Hi "o"%char output_action (or_intror (or_introl eq_refl)) o_c o Ho).
  reflexivity.
Qed.

(** ** Reshaping, continued *)

Lemma append_segments_agree items : forall items' acc,
  Forall2 (fun s s' => reshape s = reshape s') items items' ->
  append_segments items acc = append_segments items' acc.
Proof.
  induction items as [|x items IH]; intros items' acc H; inversion H; subst.
  - reflexivity.
  - simpl. match goal with H : reshape x = reshape _ |- _ => rewrite <- H end.
    destruct (reshape x); [|reflexivity]. now apply IH.
Qed.

(** X7.  The reshaped list depends on nothing but the [text], [start] and
    [end] of the segments: two results whose segments agree on these three
    subscripts give the same list, or raise the same exception. *)
Theorem reshaping_ignores_other_fields r r' segs segs' :
  getitem r "segments" = Ok (PList segs) ->
  getitem r' "segments" = Ok (PList segs') ->
  Forall2 (fun s s' => getitem s "text" = getitem s' "text" /\
                       getitem s "start" = getitem s' "start" /\
                       getitem s "end" = getitem s' "end") segs segs' ->
  process_segments r = process_segments r'.
Proof.
  intros Hr Hr' H. unfold process_segments. rewrite Hr, Hr'. simpl.
  apply append_segments_agree. eapply Forall2_impl; [exact H|].
  intros s s' (H1 & H2 & H3). unfold reshape. now rewrite H1, H2, H3.
Qed.

Lemma append_segments_app good : forall acc rest,
  Forall (fun s => exists d, reshape s = Ok d) good ->
  exists ds, length ds = length good /\
    append_segments (good ++ rest) acc = append_segments rest (acc ++ ds).
Proof.
  induction good as [|x good IH]; intros acc rest H.
  - exists []. split; [reflexivity|]. simpl. now rewrite app_nil_r.
  - inversion H as [|? ? [d Hd] HF]; subst. simpl. rewrite Hd.
    destruct (IH (acc ++ [d])%list rest HF) as (ds & Hlen & Heq).
    exists (d :: ds). split; [simpl; now rewrite Hlen|].
    rewrite Heq. now rewrite <- app_assoc.
Qed.

(** X8.  The first segment that cannot be reshaped decides: its exception is
    what the loop raises, whatever follows it.  For a dictionary that lacks
    one of the three keys this is a [KeyError] naming the first missing key in
    the order [text], [start], [end]. *)
Theorem first_bad_segment_raises r good bad rest :
  getitem r "segments" = Ok (PList (good ++ bad :: rest)) ->
  Forall (fun s => exists d, reshape s = Ok d) good ->
  (forall ex, reshape bad = Raise ex -> process_segments r = Raise ex) /\
  (forall d k, bad = PDict d -> first_missing_key d = Some k ->
               process_segments r = Raise (KeyError k)).
Proof.
  intros Hr Hgood.
  assert (H : forall ex, reshape bad = Raise ex -> process_segments r = Raise ex).
  { intros ex Hbad. unfold process_segments. rewrite Hr. simpl.
    destruct (append_segments_app good [] (bad :: rest) Hgood) as (ds & _ & ->).
    simpl. now rewrite Hbad. }
  split; [exact H|]. intros d k -> Hk. apply H.
  unfold first_missing_key in Hk. unfold reshape, getitem.
  destruct (assoc "text" d); [|now injection Hk as <-].
  destruct (assoc "start" d); [|now injection Hk as <-].
  destruct (assoc "end" d); [discriminate|now injection Hk as <-].
Qed.

(** ** Runs, continued *)

Opaque segments_document.

(** X1.  Every run ends with status 0, 1 or 2.  Status 2 is the usage error
    of [parse_args] and nothing else: no file is touched and no step of
    [main] has run.  Status 0 is either the help exit of [parse_args], again
    with nothing touched, or [main] returning 0. *)
Theorem exit_status_meaning e fs :
  (exit_status (fst (run e fs)) = 0 \/ exit_status (fst (run e fs)) = 1 \/
   exit_status (fst (run e fs)) = 2) /\
  (exit_status (fst (run e fs)) = 2 <-> parse_args (argv e) = Exit 2) /\
  (exit_status (fst (run e fs)) = 2 -> snd (run e fs) = mkWorld fs []) /\
  (exit_status (fst (run e fs)) = 0 ->
   (parse_args (argv e) = Exit 0 /\ snd (run e fs) = mkWorld fs []) \/
   fst (run e fs) = Returned 0).
Proof.
  destruct (parse_args (argv e)) as [args|status] eqn:Hp.
  - assert (Hs : exists s, fst (run e fs) = Returned 0 /\ s = 0 \/
                           exit_status (fst (run e fs)) = 1 /\ s = 1).
    { run_paths Hp Hm; injection Hm as <- <-; simpl; eauto. }
    destruct Hs as [s [[Hr ->]|[Hr ->]]].
    + rewrite Hr. simpl. repeat split; auto; try discriminate.
    + rewrite Hr. repeat split; auto; try discriminate.
  - rewrite (run_exit _ _ _ Hp). simpl.
    destruct (parse_args_exit _ _ Hp) as [->| ->].
    + repeat split; auto; try discriminate.
    + repeat split; auto; try discriminate.
Qed.



(** X4.  A message is logged at level ERROR exactly in the runs that end with
    status 1, and the completion message is logged exactly in the runs in
    which [main] returns 0. *)
Theorem error_logged_iff_status_1 e fs :
  (existsb is_error_log (trace (snd (run e fs))) = true <->
   exit_status (fst (run e fs)) = 1) /\
  (In (EvLog INFO Completed) (trace (snd (run e fs))) <->
   fst (run e fs) = Returned 0).
Proof.
  destruct (parse_args (argv e)) as [args|status] eqn:Hp.
  2:{ rewrite (run_exit _ _ _ Hp). simpl.
      destruct (parse_args_exit _ _ Hp) as [->| ->];
        (split; split; intros H; try discriminate H; try contradiction). }
  run_paths Hp Hm; injection Hm as <- <-; simpl.
  all: split; split; intros H; try reflexivity; try discriminate H.
  all: try (in_trace H; fail).
  all: simpl; tauto.
Qed.

(** X5.  A run loads at most one model and transcribes at most once; a
    transcription is of an input file that exists, after the existence check
    said so and after the model it uses was loaded on the CPU. *)
Theorem transcription_follows_load e fs :
  (length (List.filter is_load (trace (snd (run e fs)))) <= 1)%nat /\
  (length (List.filter is_transcription (trace (snd (run e fs)))) <= 1)%nat /\
  (forall m p fp16 r,
     In (EvTranscribe m p fp16 r) (trace (snd (run e fs))) ->
     exists inp name before after,
       p = Some inp /\ is_Some (fs !! inp) /\
       trace (snd (run e fs))
       = (before ++ EvTranscribe m p fp16 r :: after)%list /\
       In (EvExists inp true) before /\
       In (EvLoadModel name "cpu" (Ok m)) before).
Proof.
  destruct (parse_args (argv e)) as [args|status] eqn:Hp.
  2:{ rewrite (run_exit _ _ _ Hp). simpl.
      split; [lia|]. split; [lia|]. intros m p fp16 r []. }
  run_paths Hp Hm; injection Hm as <- <-; simpl.
  all: split; [lia|]; split; [lia|]; intros m' p fp16 r Hev; in_trace Hev.
  all: injection Hev as <- <- <- <-.
  all: match goal with
       | |- exists inp name before after, _ /\ _ /\
              (?a1 :: ?a2 :: ?a3 :: ?a4 :: ?a5 :: ?a6 :: ?a7 :: ?a8 :: ?a9 ::
               ?a10 :: ?a11 :: ?a12 :: _ :: ?rest) = _ /\ _ =>
           eexists; eexists;
           exists [a1; a2; a3; a4; a5; a6; a7; a8; a9; a10; a11; a12], rest
       end.
  all: split; [reflexivity|]; split; [eauto|]; split; [reflexivity|].
  all: simpl; split; auto 20.
Qed.

(** X6.  When the input path names no existing file the run ends with status
    1, whatever the imports and the output path do, and it neither asks for
    the file size nor loads a model nor transcribes. *)
Theorem missing_input_skips_model e fs inp :
  input_path e = Some inp -> fs !! inp = None ->
  exit_status (fst (run e fs)) = 1 /\
  existsb works_on_input (trace (snd (run e fs))) = false.
Proof.
  unfold input_path. intros Hi Hfs.
  destruct (parse_args (argv e)) as [args|status] eqn:Hp; [|discriminate].
  run_paths Hp Hm; simpl in Hi; injection Hi as ->; try congruence.
  all: injection Hm as <- <-; split; reflexivity.
Qed.


(** ** Sample runs, continued *)

Transparent segments_document.


(** [missing_input_skips_model] on a sample run. *)
Lemma missing_input_skips_model_witness :
  input_path Demo.good = Some "a.wav" /\
  (∅ : gmap string content) !! "a.wav" = None /\
  exit_status (fst (run Demo.good ∅)) = 1 /\
  existsb works_on_input (trace (snd (run Demo.good ∅))) = false.
Proof.
  split; [reflexivity|]. split; [reflexivity|].
  apply (missing_input_skips_model Demo.good ∅ "a.wav"); reflexivity.
Defined.

(** [reshaping_ignores_other_fields] on a sample result. *)
Lemma reshaping_ignores_other_fields_witness :
  getitem Demo.transcription "segments" = Ok (PList [Demo.hello; Demo.bye]) /\
  process_segments Demo.transcription
  = process_segments Cases.bare_transcription.
Proof.
  split; [reflexivity|].
  eapply (reshaping_ignores_other_fields Demo.transcription
            Cases.bare_transcription); [reflexivity | reflexivity |].
  repeat constructor.
Defined.

(** [first_bad_segment_raises] on a sample result. *)
Lemma first_bad_segment_raises_witness :
  getitem Cases.broken_transcription "segments"
  = Ok (PList ([Demo.hello] ++ Cases.no_text :: [Demo.bye])) /\
  first_missing_key
    [("id", PInt 1); ("start", PFloat 7 (-1)); ("end", PFloat 5 0)]
  = Some "text" /\
  process_segments Cases.broken_transcription = Raise (KeyError "text") /\
  exn_str (KeyError "text") = "'text'".
Proof.
  split; [reflexivity|]. split; [reflexivity|]. split; [|reflexivity].
  destruct (first_bad_segment_raises Cases.broken_transcription
              [Demo.hello] Cases.no_text [Demo.bye] eq_refl) as [_ H].
  - constructor; [|constructor]. eexists. reflexivity.
  - exact (H _ "text" eq_refl eq_refl).
Defined.


(** [later_option_wins] on a sample command line. *)
Lemma later_option_wins_witness :
  parse_args Demo.command = Parsed Demo.parsed_command /\
  parse_args (Demo.command ++ ["--mod"; "base"])
  = Parsed (mkNamespace (Some "a.wav") (Some "out.json") (Some "base")) /\
  parse_args (Demo.command ++ ["-i"; "b.wav"])
  = Parsed (mkNamespace (Some "b.wav") (Some "out.json") (Some "tiny")).
Proof.
  split; [reflexivity|]. split.
  - apply (later_option_wins Demo.command Demo.parsed_command Model "--mod"
             "base"); [reflexivity | right; split; [simpl; lia | reflexivity]
                       | reflexivity].
  - apply (later_option_wins Demo.command Demo.parsed_command Input "-i"
             "b.wav"); [reflexivity | left; simpl; tauto | reflexivity].
Defined.

(** [explicit_value_taken_as_is] on a sample command line. *)
Lemma explicit_value_taken_as_is_witness :
  "-draft.wav" <> "--" /\ "out.json" <> "--" /\
  plain "-draft.wav" = false /\
  parse_args ["--input=-draft.wav"; "--output=out.json"]
  = Parsed (mkNamespace (Some "-draft.wav") (Some "out.json") (Some "tiny")).
Proof.
  split; [discriminate|]. split; [discriminate|]. split; [reflexivity|].
  apply (explicit_value_taken_as_is "-draft.wav" "out.json"); discriminate.
Defined.

(** [glued_value_taken] on a sample command line. *)
Lemma glued_value_taken_witness :
  parse_args ["-ia.wav"; "-oout.json"]
  = Parsed (mkNamespace (Some "a.wav") (Some "out.json") (Some "tiny")).
Proof.
  apply (glued_value_taken "a" ".wav" "o" "ut.json");
    (reflexivity || discriminate).
Defined.

(** [help_exits_first] on a sample run. *)
Lemma help_exits_first_witness :
  argv Cases.asks_for_help = "--help" :: ["--bogus"] /\
  ambiguous "--bogus" = false /\
  run Cases.asks_for_help Demo.with_audio
  = (SystemExit 0, mkWorld Demo.with_audio []).
Proof.
  split; [reflexivity|]. split; [reflexivity|].
  apply (help_exits_first Cases.asks_for_help Demo.with_audio "--help"
           ["--bogus"]); [reflexivity | simpl; tauto |].
  constructor; [right; reflexivity | constructor].
Defined.
